(** * shmexport.c: shared-memory export from the daemon

    A shallow embedding of [src/shmexport.c] (recreate_segment,
    shm_acquire, shm_release, shm_update) and the properties its
    specification states about it.

    The C code talks to the kernel through shmget/shmctl/shmat/shmdt, keeps
    [errno] and a function-local [static int tick], logs through
    [GPSD_LOG] and writes into the attached segment.  All of that is
    explicit state here: a [world] threaded through a small state monad.
    The kernel itself is not part of the repository, so it is an
    interface ([Platform]); the C library's calling convention (return -1
    and set [errno] on failure, leave [errno] alone on success) is written
    out in the wrappers. *)

From Stdlib Require Import ZArith List Ascii String Bool Lia.
Import ListNotations.
Local Open Scope Z_scope.

(** ** Machine integers *)

(** [int] is 32 bits wide; a conversion to [int] (and [++] on an [int], as
    the specification reads it) wraps in two's complement. *)
Definition INT_MIN : Z := - 2 ^ 31.
Definition INT_MAX : Z := 2 ^ 31 - 1.
Definition wrap_int (z : Z) : Z := (z + 2 ^ 31) mod 2 ^ 32 - 2 ^ 31.

(** ** Data *)

(** [struct gps_data_t]: the descriptor field the publisher patches, and
    everything else in the structure, which the code only copies. *)
Record gps_data_t (P : Type) : Type := mk_gps_data {
  gps_fd : Z;
  gps_rest : P
}.
Arguments mk_gps_data {P} _ _.
Arguments gps_fd {P} _.
Arguments gps_rest {P} _.

(** [struct shmexport_t], in its declaration order. *)
Record shmexport_t (P : Type) : Type := mk_shmexport {
  bookend1 : Z;
  gpsdata : gps_data_t P;
  bookend2 : Z
}.
Arguments mk_shmexport {P} _ _ _.
Arguments bookend1 {P} _.
Arguments gpsdata {P} _.
Arguments bookend2 {P} _.

(** The two fields of [struct gps_context_t] the file touches.  Pointers
    are their value converted to [long]; [NULL] is 0. *)
Record gps_context_t : Type := mk_context {
  shmexport : Z;
  shmid : Z
}.

Definition NULL : Z := 0.

Definition set_shmexport (p : Z) (c : gps_context_t) : gps_context_t :=
  {| shmexport := p; shmid := shmid c |}.
Definition set_shmid (i : Z) (c : gps_context_t) : gps_context_t :=
  {| shmexport := shmexport c; shmid := i |}.

(** The fields of [struct shmid_ds] that are read. *)
Record shmid_ds : Type := mk_shmid_ds {
  shm_segsz : Z;
  shm_nattch : Z
}.

(** ** The platform *)

(** What a system call hands back to the C library. *)
Inductive sysret : Type :=
| SysOk (v : Z)
| SysErr (e : Z).

(** What [shmctl(id, IPC_STAT, &buf)] hands back: the filled buffer or an
    error number. *)
Inductive statret : Type :=
| StatOk (buf : shmid_ds)
| StatErr (e : Z).

(** The kernel, with state [K]. [sys_shmctl_stat] and [sys_shmctl_rmid]
    are [shmctl] with the commands IPC_STAT and IPC_RMID. *)
Class Platform (K : Type) : Type := {
  sys_shmget : K -> Z -> Z -> Z -> K * sysret;
  sys_shmctl_stat : K -> Z -> K * statret;
  sys_shmctl_rmid : K -> Z -> K * sysret;
  sys_shmat : K -> Z -> Z -> Z -> K * sysret;
  sys_shmdt : K -> Z -> K * sysret;
  strtol : string -> Z
}.

(** Constants and sizes that come from headers outside [src/]. *)
Class Headers : Type := {
  IPC_CREAT : Z;
  GPSD_SHM_KEY : Z;
  SHM_PSEUDO_FD : Z;
  sizeof_shmexport_t : Z
}.

(** ** Observable actions *)

(** Calls into the kernel, in the order issued. *)
Inductive syscall : Type :=
| Shmget (key size shmflg : Z)
| ShmctlStat (id : Z)
| ShmctlRmid (id : Z)
| Shmat (id addr shmflg : Z)
| Shmdt (addr : Z).

(** Operations on the attached segment, in program order. *)
Inductive shm_op (P : Type) : Type :=
| StoreBookend2 (p : Z) (v : Z)
| StoreGpsdata (p : Z) (g : gps_data_t P)
| StoreGpsFd (p : Z) (v : Z)
| StoreBookend1 (p : Z) (v : Z)
| MemoryBarrier.
Arguments StoreBookend2 {P} _ _.
Arguments StoreGpsdata {P} _ _.
Arguments StoreGpsFd {P} _ _.
Arguments StoreBookend1 {P} _ _.
Arguments MemoryBarrier {P}.

(** The messages handed to [GPSD_LOG]. *)
Inductive log_level : Type := LOG_ERROR | LOG_WARN | LOG_PROG.

Inductive log_msg : Type :=
| MsgShmgetFailed (shmkey segment_size err : Z)
| MsgShmgetSucceeded (shmkey segment_size : Z)
| MsgShmatFailed (err : Z)
| MsgShmatSucceeded (id : Z)
| MsgRmidFailed (err : Z).

(** ** Process state *)

Record world (K P : Type) : Type := mk_world {
  kern : K;                          (* the kernel's state *)
  errno : Z;
  tick : Z;                          (* [static int tick] of shm_update *)
  shm : Z -> shmexport_t P;          (* the record a region pointer points at *)
  shm_ops : list (shm_op P);         (* operations on the segment so far *)
  syscalls : list syscall;           (* kernel calls so far *)
  errout : list (log_level * log_msg);
  env_GPSD_SHM_KEY : option string   (* getenv("GPSD_SHM_KEY") *)
}.
Arguments mk_world {K P} _ _ _ _ _ _ _ _.
Arguments kern {K P} _.
Arguments errno {K P} _.
Arguments tick {K P} _.
Arguments shm {K P} _ _.
Arguments shm_ops {K P} _.
Arguments syscalls {K P} _.
Arguments errout {K P} _.
Arguments env_GPSD_SHM_KEY {K P} _.

Section Embedding.

Context {K P : Type} {PF : Platform K} {HD : Headers}.

#[local] Abbreviation world := (world K P).

(** *** The state monad *)

Definition M (A : Type) : Type := world -> A * world.

Definition ret {A : Type} (a : A) : M A := fun w => (a, w).

Definition bind {A B : Type} (m : M A) (f : A -> M B) : M B :=
  fun w => let (a, w') := m w in f a w'.

Notation "x <- m ;; k" := (bind m (fun x => k))
  (at level 61, m at next level, right associativity).
Notation "m ;; k" := (bind m (fun _ => k))
  (at level 61, right associativity).

(** *** Field updates *)

Definition with_kern (k : K) (w : world) : world :=
  let (_, e, t, m, o, s, l, v) := w in mk_world k e t m o s l v.
Definition with_errno (e : Z) (w : world) : world :=
  let (k, _, t, m, o, s, l, v) := w in mk_world k e t m o s l v.
Definition with_tick (t : Z) (w : world) : world :=
  let (k, e, _, m, o, s, l, v) := w in mk_world k e t m o s l v.
Definition with_shm (m : Z -> shmexport_t P) (w : world) : world :=
  let (k, e, t, _, o, s, l, v) := w in mk_world k e t m o s l v.
Definition with_shm_ops (o : list (shm_op P)) (w : world) : world :=
  let (k, e, t, m, _, s, l, v) := w in mk_world k e t m o s l v.
Definition with_syscalls (s : list syscall) (w : world) : world :=
  let (k, e, t, m, o, _, l, v) := w in mk_world k e t m o s l v.
Definition with_errout (l : list (log_level * log_msg)) (w : world) : world :=
  let (k, e, t, m, o, s, _, v) := w in mk_world k e t m o s l v.

(** *** errno, the environment and the log *)

Definition get_errno : M Z := fun w => (errno w, w).
Definition set_errno (e : Z) : M unit := fun w => (tt, with_errno e w).
Definition getenv_GPSD_SHM_KEY : M (option string) :=
  fun w => (env_GPSD_SHM_KEY w, w).
Definition GPSD_LOG (l : log_level) (m : log_msg) : M unit :=
  fun w => (tt, with_errout (errout w ++ [(l, m)]) w).

(** *** The C library's entry points

    Each records the call, lets the kernel act, and on an error stores the
    error number in [errno] and returns -1; a successful call leaves
    [errno] as it was. *)

Definition enter (c : syscall) (k : K) (w : world) : world :=
  with_kern k (with_syscalls (syscalls w ++ [c]) w).

Definition leave (r : sysret) (w : world) : Z * world :=
  match r with
  | SysOk v => (v, w)
  | SysErr e => (-1, with_errno e w)
  end.

Definition shmget (key size shmflg : Z) : M Z := fun w =>
  let (k, r) := sys_shmget (kern w) key size shmflg in
  leave r (enter (Shmget key size shmflg) k w).

(** [shmctl(id, IPC_STAT, &segment)]: returns the call's value and the
    buffer, which is overwritten on success only. *)
Definition shmctl_stat (id : Z) (segment : shmid_ds) : M (Z * shmid_ds) :=
  fun w =>
  let (k, r) := sys_shmctl_stat (kern w) id in
  let w' := enter (ShmctlStat id) k w in
  match r with
  | StatOk buf => ((0, buf), w')
  | StatErr e => ((-1, segment), with_errno e w')
  end.

Definition shmctl_rmid (id : Z) : M Z := fun w =>
  let (k, r) := sys_shmctl_rmid (kern w) id in
  leave r (enter (ShmctlRmid id) k w).

(** Returns the address as a [long]; the failure value [(void * )-1] is -1. *)
Definition shmat (id addr shmflg : Z) : M Z := fun w =>
  let (k, r) := sys_shmat (kern w) id addr shmflg in
  leave r (enter (Shmat id addr shmflg) k w).

Definition shmdt (addr : Z) : M Z := fun w =>
  let (k, r) := sys_shmdt (kern w) addr in
  leave r (enter (Shmdt addr) k w).

(** *** Stores into the segment *)

Definition upd (p : Z) (r : shmexport_t P) (m : Z -> shmexport_t P)
  : Z -> shmexport_t P :=
  fun q => if Z.eqb q p then r else m q.

Definition apply_op (o : shm_op P) (m : Z -> shmexport_t P)
  : Z -> shmexport_t P :=
  match o with
  | StoreBookend2 p v =>
      upd p (mk_shmexport (bookend1 (m p)) (gpsdata (m p)) v) m
  | StoreGpsdata p g =>
      upd p (mk_shmexport (bookend1 (m p)) g (bookend2 (m p))) m
  | StoreGpsFd p v =>
      upd p (mk_shmexport (bookend1 (m p))
                          (mk_gps_data v (gps_rest (gpsdata (m p))))
                          (bookend2 (m p))) m
  | StoreBookend1 p v =>
      upd p (mk_shmexport v (gpsdata (m p)) (bookend2 (m p))) m
  | MemoryBarrier => m
  end.

Definition perform (o : shm_op P) : M unit := fun w =>
  (tt, with_shm (apply_op o (shm w)) (with_shm_ops (shm_ops w ++ [o]) w)).

Definition memory_barrier : M unit := perform MemoryBarrier.

(** [++tick] on the function's static counter. *)
Definition incr_tick : M Z := fun w =>
  let t := wrap_int (tick w + 1) in (t, with_tick t w).

(** The process state once the kernel calls [calls] have been made on top
    of [w], the kernel is in state [k] and [errno] holds [e]. *)
Definition after (calls : list syscall) (k : K) (e : Z) (w : world) : world :=
  mk_world k e (tick w) (shm w) (shm_ops w) (syscalls w ++ calls) (errout w)
           (env_GPSD_SHM_KEY w).

(** *** recreate_segment *)

(** The local [struct shmid_ds segment] before IPC_STAT fills it; it is
    not read on any path that leaves it unfilled. *)
Definition segment_unset : shmid_ds := mk_shmid_ds 0 0.

Definition recreate_segment (shmkey : Z) (context : gps_context_t)
    (desired_size : Z) (mode : Z) : M Z :=
  shmid <- shmget shmkey desired_size (Z.lor mode IPC_CREAT) ;;
  if negb (shmid =? -1) then
    ret shmid
  else
    saved_errno <- get_errno ;;
    shmid <- shmget shmkey 0 0 ;;
    if -1 =? shmid then
      set_errno saved_errno ;; ret (-1)
    else
      st <- shmctl_stat shmid segment_unset ;;
      let (r, segment) := (st : Z * shmid_ds) in
      if -1 =? r then
        set_errno saved_errno ;; ret (-1)
      else if shm_segsz segment >=? desired_size then
        ret (-1)
      else if shm_nattch segment >? 0 then
        ret (-1)
      else
        r <- shmctl_rmid shmid ;;
        if -1 =? r then
          set_errno saved_errno ;; ret (-1)
        else
          shmid <- shmget shmkey desired_size (Z.lor mode IPC_CREAT) ;;
          ret shmid.

(** *** shm_acquire *)

Definition shm_acquire (context : gps_context_t) : M (bool * gps_context_t) :=
  env <- getenv_GPSD_SHM_KEY ;;
  let shmkey := match env with Some s => strtol s | None => GPSD_SHM_KEY end in
  let mode := 438 (* 0666 *) in
  let segment_size := sizeof_shmexport_t in
  shmid <- recreate_segment (wrap_int shmkey) context segment_size mode ;;
  if shmid =? -1 then
    e <- get_errno ;;
    GPSD_LOG LOG_ERROR (MsgShmgetFailed shmkey segment_size e) ;;
    ret (false, context)
  else
    GPSD_LOG LOG_PROG (MsgShmgetSucceeded shmkey segment_size) ;;
    p <- shmat shmid 0 0 ;;
    let context := set_shmexport p context in
    if wrap_int (shmexport context) =? -1 then
      e <- get_errno ;;
      GPSD_LOG LOG_ERROR (MsgShmatFailed e) ;;
      ret (false, set_shmexport NULL context)
    else
      let context := set_shmid shmid context in
      GPSD_LOG LOG_PROG (MsgShmatSucceeded shmid) ;;
      ret (true, context).

(** *** shm_release *)

Definition shm_release (context : gps_context_t) : M gps_context_t :=
  if shmexport context =? NULL then
    ret context
  else
    r <- shmctl_rmid (shmid context) ;;
    (if r =? -1 then
       e <- get_errno ;; GPSD_LOG LOG_WARN (MsgRmidFailed e)
     else ret tt) ;;
    shmdt (shmexport context) ;;
    ret context.

(** *** shm_update

    The build without USE_QT; with it the same sentinel is stored into
    [gps_fd] through a pointer cast. *)

Definition shm_update (context : gps_context_t) (gpsdata : gps_data_t P)
  : M gps_context_t :=
  if negb (shmexport context =? NULL) then
    let shared := shmexport context in
    tick <- incr_tick ;;
    perform (StoreBookend2 shared tick) ;;
    memory_barrier ;;
    perform (StoreGpsdata shared gpsdata) ;;
    memory_barrier ;;
    perform (StoreGpsFd shared SHM_PSEUDO_FD) ;;
    memory_barrier ;;
    perform (StoreBookend1 shared tick) ;;
    ret context
  else
    ret context.

(** *** A run of the process

    The owning process calls the three entry points on its one context, in
    some order. *)

Inductive api_call : Type :=
| Acquire
| Release
| Publish (g : gps_data_t P).

Definition step (a : api_call) (context : gps_context_t) : M gps_context_t :=
  match a with
  | Acquire => r <- shm_acquire context ;; ret (snd r)
  | Release => shm_release context
  | Publish g => shm_update context g
  end.

Fixpoint run (l : list api_call) (context : gps_context_t) : M gps_context_t :=
  match l with
  | [] => ret context
  | a :: l' => c <- step a context ;; run l' c
  end.

(** The ticks stored into the leading bookend, oldest first. *)
Fixpoint leading_ticks (ops : list (shm_op P)) : list Z :=
  match ops with
  | [] => []
  | StoreBookend1 _ v :: rest => v :: leading_ticks rest
  | _ :: rest => leading_ticks rest
  end.

(** The ticks stored into the trailing bookend, oldest first. *)
Fixpoint trailing_ticks (ops : list (shm_op P)) : list Z :=
  match ops with
  | [] => []
  | StoreBookend2 _ v :: rest => v :: trailing_ticks rest
  | _ :: rest => trailing_ticks rest
  end.

(** [l] continues the counter from [t]: each element is its predecessor
    plus one, as an [int]. *)
Fixpoint counts_from (t : Z) (l : list Z) : Prop :=
  match l with
  | [] => True
  | x :: l' => x = wrap_int (t + 1) /\ counts_from x l'
  end.

(** The publishes of a run that find a region mapped. *)
Fixpoint mapped_publishes (l : list api_call) (context : gps_context_t)
    (w : world) : nat :=
  match l with
  | [] => 0
  | a :: l' =>
      let here :=
        match a with
        | Publish _ => if shmexport context =? NULL then 0%nat else 1%nat
        | _ => 0%nat
        end in
      let (c, w') := step a context w in
      (here + mapped_publishes l' c w')%nat
  end.

(** [b] is the tick after [a]: one more, or the smallest [int] when [a] is
    the largest; either way another value. *)
Definition successor (a b : Z) : Prop :=
  b = wrap_int (a + 1) /\ b <> a /\
  (b = a + 1 \/ (a = INT_MAX /\ b = INT_MIN)).

(** Each element of a list paired with the next. *)
Definition adjacent (l : list Z) : list (Z * Z) := combine l (tl l).

(** [m] does not touch the publisher's state: the tick counter, the
    segment's contents and the record of operations on it. *)
Definition leaves_segment {A : Type} (m : M A) : Prop :=
  forall w,
    tick (snd (m w)) = tick w /\
    shm_ops (snd (m w)) = shm_ops w /\
    shm (snd (m w)) = shm w.

(** *** What the platform is expected to honour

    A failed [shmget], a [shmget(key, 0, 0)] and an IPC_STAT leave the
    kernel's state as it was. *)
Definition probes_read_only : Prop :=
  (forall k key size flg k' e,
      sys_shmget k key size flg = (k', SysErr e) -> k' = k) /\
  (forall k key k' r, sys_shmget k key 0 0 = (k', r) -> k' = k) /\
  (forall k id k' r, sys_shmctl_stat k id = (k', r) -> k' = k).

(** The ways [recreate_segment] gives up after its first [shmget] failed
    and left the kernel in state [k1], short of retrying the creation. *)
Inductive gives_up (k1 : K) (key desired_size : Z) : Prop :=
| no_segment k2 e :
    sys_shmget k1 key 0 0 = (k2, SysErr e) ->
    gives_up k1 key desired_size
| stat_fails k2 id k3 e :
    sys_shmget k1 key 0 0 = (k2, SysOk id) -> id <> -1 ->
    sys_shmctl_stat k2 id = (k3, StatErr e) ->
    gives_up k1 key desired_size
| big_enough k2 id k3 seg :
    sys_shmget k1 key 0 0 = (k2, SysOk id) -> id <> -1 ->
    sys_shmctl_stat k2 id = (k3, StatOk seg) ->
    desired_size <= shm_segsz seg ->
    gives_up k1 key desired_size
| busy k2 id k3 seg :
    sys_shmget k1 key 0 0 = (k2, SysOk id) -> id <> -1 ->
    sys_shmctl_stat k2 id = (k3, StatOk seg) ->
    shm_segsz seg < desired_size -> 1 <= shm_nattch seg ->
    gives_up k1 key desired_size
| delete_fails k2 id k3 seg k4 e :
    sys_shmget k1 key 0 0 = (k2, SysOk id) -> id <> -1 ->
    sys_shmctl_stat k2 id = (k3, StatOk seg) ->
    shm_segsz seg < desired_size -> shm_nattch seg = 0 ->
    sys_shmctl_rmid k3 id = (k4, SysErr e) ->
    gives_up k1 key desired_size.

(** *** recreate_segment, as a relation on what the kernel answers *)

(** The value a C caller gets from a call, and [errno] after it. *)
Definition retval (r : sysret) : Z :=
  match r with SysOk v => v | SysErr _ => -1 end.
Definition errno_after (r : sysret) (e : Z) : Z :=
  match r with SysOk _ => e | SysErr e' => e' end.

(** [recreate_path k0 e0 key size flg calls r k e]: from kernel state
    [k0] and errno [e0] the function makes the kernel calls [calls],
    returns [r], and leaves the kernel in state [k] and [errno] at [e].
    One constructor per [return] of the C function. *)
Inductive recreate_path (k0 : K) (e0 : Z) (key size flg : Z)
  : list syscall -> Z -> K -> Z -> Prop :=
| went_created k1 r1 :
    sys_shmget k0 key size flg = (k1, r1) -> retval r1 <> -1 ->
    recreate_path k0 e0 key size flg
      [Shmget key size flg] (retval r1) k1 e0
| went_no_segment k1 r1 k2 r2 :
    sys_shmget k0 key size flg = (k1, r1) -> retval r1 = -1 ->
    sys_shmget k1 key 0 0 = (k2, r2) -> retval r2 = -1 ->
    recreate_path k0 e0 key size flg
      [Shmget key size flg; Shmget key 0 0] (-1) k2 (errno_after r1 e0)
| went_stat_fails k1 r1 k2 r2 k3 e :
    sys_shmget k0 key size flg = (k1, r1) -> retval r1 = -1 ->
    sys_shmget k1 key 0 0 = (k2, r2) -> retval r2 <> -1 ->
    sys_shmctl_stat k2 (retval r2) = (k3, StatErr e) ->
    recreate_path k0 e0 key size flg
      [Shmget key size flg; Shmget key 0 0; ShmctlStat (retval r2)]
      (-1) k3 (errno_after r1 e0)
| went_big_enough k1 r1 k2 r2 k3 seg :
    sys_shmget k0 key size flg = (k1, r1) -> retval r1 = -1 ->
    sys_shmget k1 key 0 0 = (k2, r2) -> retval r2 <> -1 ->
    sys_shmctl_stat k2 (retval r2) = (k3, StatOk seg) ->
    size <= shm_segsz seg ->
    recreate_path k0 e0 key size flg
      [Shmget key size flg; Shmget key 0 0; ShmctlStat (retval r2)]
      (-1) k3 (errno_after r1 e0)
| went_busy k1 r1 k2 r2 k3 seg :
    sys_shmget k0 key size flg = (k1, r1) -> retval r1 = -1 ->
    sys_shmget k1 key 0 0 = (k2, r2) -> retval r2 <> -1 ->
    sys_shmctl_stat k2 (retval r2) = (k3, StatOk seg) ->
    shm_segsz seg < size -> 0 < shm_nattch seg ->
    recreate_path k0 e0 key size flg
      [Shmget key size flg; Shmget key 0 0; ShmctlStat (retval r2)]
      (-1) k3 (errno_after r1 e0)
| went_delete_fails k1 r1 k2 r2 k3 seg k4 r4 :
    sys_shmget k0 key size flg = (k1, r1) -> retval r1 = -1 ->
    sys_shmget k1 key 0 0 = (k2, r2) -> retval r2 <> -1 ->
    sys_shmctl_stat k2 (retval r2) = (k3, StatOk seg) ->
    shm_segsz seg < size -> shm_nattch seg <= 0 ->
    sys_shmctl_rmid k3 (retval r2) = (k4, r4) -> retval r4 = -1 ->
    recreate_path k0 e0 key size flg
      [Shmget key size flg; Shmget key 0 0; ShmctlStat (retval r2);
       ShmctlRmid (retval r2)]
      (-1) k4 (errno_after r1 e0)
| went_retry k1 r1 k2 r2 k3 seg k4 r4 k5 r5 :
    sys_shmget k0 key size flg = (k1, r1) -> retval r1 = -1 ->
    sys_shmget k1 key 0 0 = (k2, r2) -> retval r2 <> -1 ->
    sys_shmctl_stat k2 (retval r2) = (k3, StatOk seg) ->
    shm_segsz seg < size -> shm_nattch seg <= 0 ->
    sys_shmctl_rmid k3 (retval r2) = (k4, r4) -> retval r4 <> -1 ->
    sys_shmget k4 key size flg = (k5, r5) ->
    recreate_path k0 e0 key size flg
      [Shmget key size flg; Shmget key 0 0; ShmctlStat (retval r2);
       ShmctlRmid (retval r2); Shmget key size flg]
      (retval r5) k5 (errno_after r5 (errno_after r1 e0)).

(** The kernel calls a computation makes when started in [w]. *)
Definition calls_of {A : Type} (m : M A) (w : world) : list syscall :=
  skipn (List.length (syscalls w)) (syscalls (snd (m w))).

(** *** The segment as a reader may find it

    A reader in another process sees the segment as some prefix of the
    publisher's stores has left it. *)
Definition replay (ops : list (shm_op P)) (m : Z -> shmexport_t P)
  : Z -> shmexport_t P :=
  fold_left (fun m o => apply_op o m) ops m.

(** The operations one call of shm_update performs. *)
Definition publish_ops (context : gps_context_t) (gpsdata : gps_data_t P)
    (w : world) : list (shm_op P) :=
  skipn (List.length (shm_ops w))
        (shm_ops (snd (shm_update context gpsdata w))).

End Embedding.

Arguments api_call P : clear implicits.
Arguments Acquire {P}.
Arguments Release {P}.
Arguments Publish {P} g.

(** ** A System V kernel to run the embedding on

    A small model of the kernel side of shmget(2), shmctl(2), shmat(2) and
    shmdt(2), with Linux's error numbers, permission check and order of
    checks.  It instantiates [Platform], so that the functions above can be
    evaluated on concrete process states. *)

Module SysV.

Definition EPERM : Z := 1.
Definition ENOENT : Z := 2.
Definition ENOMEM : Z := 12.
Definition EACCES : Z := 13.
Definition EINVAL : Z := 22.

Record segment : Type := mk_segment {
  seg_key : Z;
  seg_id : Z;
  seg_size : Z;
  seg_nattch : Z;
  seg_grant : Z;      (* the rwx bits the calling process holds on it *)
  seg_owner : bool;   (* the caller owns it, and so may remove it *)
  seg_doomed : bool   (* marked by IPC_RMID while still attached *)
}.

Record kernel : Type := mk_kernel {
  segments : list segment;
  next_id : Z;
  free_addrs : list Z;           (* where the next attachments would land *)
  attached : list (Z * Z)        (* address, segment id *)
}.

Definition by_key (key : Z) (s : segment) : bool :=
  (seg_key s =? key) && negb (seg_doomed s).
Definition by_id (id : Z) (s : segment) : bool := seg_id s =? id.

(** ipcperms(): the request of any of the three classes is checked
    against the bits the caller holds. *)
Definition denied (shmflg grant : Z) : bool :=
  let requested :=
    Z.lor (Z.lor (Z.shiftr shmflg 6) (Z.shiftr shmflg 3)) shmflg in
  negb (Z.land (Z.land requested (Z.lnot grant)) 7 =? 0).

Definition k_shmget (ipc_creat : Z) (k : kernel) (key size shmflg : Z)
  : kernel * sysret :=
  match find (by_key key) (segments k) with
  | Some s =>
      if size >? seg_size s then (k, SysErr EINVAL)
      else if denied shmflg (seg_grant s) then (k, SysErr EACCES)
      else (k, SysOk (seg_id s))
  | None =>
      if Z.land shmflg ipc_creat =? 0 then (k, SysErr ENOENT)
      else if size <? 1 then (k, SysErr EINVAL)
      else
        let s := mk_segment key (next_id k) size 0
                            (Z.land (Z.shiftr shmflg 6) 7) true false in
        (mk_kernel (segments k ++ [s]) (next_id k + 1)
                   (free_addrs k) (attached k),
         SysOk (next_id k))
  end.

Definition k_stat (k : kernel) (id : Z) : kernel * statret :=
  match find (by_id id) (segments k) with
  | Some s =>
      if Z.land (seg_grant s) 4 =? 0 then (k, StatErr EACCES)
      else (k, StatOk (mk_shmid_ds (seg_size s) (seg_nattch s)))
  | None => (k, StatErr EINVAL)
  end.

Definition doom (id : Z) (s : segment) : segment :=
  if by_id id s
  then mk_segment (seg_key s) (seg_id s) (seg_size s) (seg_nattch s)
                  (seg_grant s) (seg_owner s) true
  else s.

Definition k_rmid (k : kernel) (id : Z) : kernel * sysret :=
  match find (by_id id) (segments k) with
  | Some s =>
      if negb (seg_owner s) then (k, SysErr EPERM)
      else if seg_nattch s =? 0 then
        (mk_kernel (filter (fun s => negb (by_id id s)) (segments k))
                   (next_id k) (free_addrs k) (attached k), SysOk 0)
      else
        (mk_kernel (map (doom id) (segments k))
                   (next_id k) (free_addrs k) (attached k), SysOk 0)
  | None => (k, SysErr EINVAL)
  end.

Definition attach (id : Z) (s : segment) : segment :=
  if by_id id s
  then mk_segment (seg_key s) (seg_id s) (seg_size s) (seg_nattch s + 1)
                  (seg_grant s) (seg_owner s) (seg_doomed s)
  else s.

Definition k_shmat (k : kernel) (id addr shmflg : Z) : kernel * sysret :=
  match find (by_id id) (segments k) with
  | Some s =>
      if negb (Z.land (seg_grant s) 6 =? 6) then (k, SysErr EACCES)
      else
        match free_addrs k with
        | [] => (k, SysErr ENOMEM)
        | a :: rest =>
            (mk_kernel (map (attach id) (segments k)) (next_id k) rest
                       ((a, id) :: attached k), SysOk a)
        end
  | None => (k, SysErr EINVAL)
  end.

Definition detach (id : Z) (s : segment) : segment :=
  if by_id id s
  then mk_segment (seg_key s) (seg_id s) (seg_size s) (seg_nattch s - 1)
                  (seg_grant s) (seg_owner s) (seg_doomed s)
  else s.

Definition gone (s : segment) : bool :=
  seg_doomed s && (seg_nattch s =? 0).

Definition k_shmdt (k : kernel) (addr : Z) : kernel * sysret :=
  match find (fun a => fst a =? addr) (attached k) with
  | Some (_, id) =>
      (mk_kernel
         (filter (fun s => negb (gone s)) (map (detach id) (segments k)))
         (next_id k) (addr :: free_addrs k)
         (filter (fun a => negb (fst a =? addr)) (attached k)), SysOk 0)
  | None => (k, SysErr EINVAL)
  end.

(** A [strtol(s, NULL, 0)] for digits strings: [0x] selects base 16, a
    leading [0] base 8, anything else base 10; conversion stops at the
    first character that is not a digit of the base. *)
Definition digit_of (c : Ascii.ascii) : option Z :=
  let n := Z.of_nat (Ascii.nat_of_ascii c) in
  if (48 <=? n) && (n <=? 57) then Some (n - 48)
  else if (97 <=? n) && (n <=? 102) then Some (n - 87)
  else if (65 <=? n) && (n <=? 70) then Some (n - 55)
  else None.

Fixpoint digits (base acc : Z) (s : string) : Z :=
  match s with
  | EmptyString => acc
  | String c rest =>
      match digit_of c with
      | Some d => if d <? base then digits base (acc * base + d) rest else acc
      | None => acc
      end
  end.

Definition k_strtol (s : string) : Z :=
  match s with
  | String "0"%char (String "x"%char rest) => digits 16 0 rest
  | String "0"%char rest => digits 8 0 rest
  | String "-"%char rest => - digits 10 0 rest
  | _ => digits 10 0 s
  end.

Definition linux_headers : Headers := {|
  IPC_CREAT := 512;            (* 01000 *)
  GPSD_SHM_KEY := 1196446532;  (* 0x47505344, "GPSD" *)
  SHM_PSEUDO_FD := -1;
  sizeof_shmexport_t := 1024
|}.

Definition platform : Platform kernel := {|
  sys_shmget := k_shmget 512;
  sys_shmctl_stat := k_stat;
  sys_shmctl_rmid := k_rmid;
  sys_shmat := k_shmat;
  sys_shmdt := k_shmdt;
  strtol := k_strtol
|}.

(** A process at start-up over kernel state [k]: nothing written, nothing
    called, [tick] zero as a static is. *)
Definition boot (k : kernel) (env : option string) : world kernel string :=
  mk_world k 0 0
           (fun _ => mk_shmexport 0 (mk_gps_data 0 EmptyString) 0)
           [] [] [] env.

Definition empty_kernel : kernel := mk_kernel [] 1 [4096; 8192] [].

(** A kernel holding one segment under the default key. *)
Definition kernel_with (size nattch grant : Z) (owner : bool) : kernel :=
  mk_kernel [mk_segment 1196446532 7 size nattch grant owner false]
            8 [4096; 8192] [].

(** A kernel with no address left to attach at. *)
Definition kernel_full : kernel := mk_kernel [] 1 [] [].

End SysV.


(** * Properties *)

Section Properties.

Context {K P : Type} {PF : Platform K} {HD : Headers}.

#[local] Abbreviation world := (world K P).

#[local] Abbreviation M := (M (K := K) (P := P)).
#[local] Abbreviation leaves_segment := (leaves_segment (K := K) (P := P)).

Implicit Types (w : world) (c context : gps_context_t) (g : gps_data_t P).

(** ** Helpers *)

Ltac open_world w :=
  destruct w as [k0 e0 t0 m0 o0 s0 l0 env0]; cbn [kern] in *.

Lemma wrap_int_range z : INT_MIN <= wrap_int z <= INT_MAX.
Proof.
  unfold wrap_int, INT_MIN, INT_MAX.
  pose proof (Z.mod_pos_bound (z + 2 ^ 31) (2 ^ 32) ltac:(lia)). lia.
Qed.

Lemma wrap_int_small z : INT_MIN <= z <= INT_MAX -> wrap_int z = z.
Proof.
  unfold wrap_int, INT_MIN, INT_MAX. intros Hz.
  rewrite Z.mod_small by lia. lia.
Qed.

Lemma wrap_int_succ_neq t : wrap_int (t + 1) <> t.
Proof.
  unfold wrap_int. intros E.
  pose proof (Z.div_mod (t + 1 + 2 ^ 31) (2 ^ 32) ltac:(lia)) as D.
  lia.
Qed.

Lemma wrap_int_minus_one : wrap_int (-1) = -1.
Proof. reflexivity. Qed.

Lemma upd_same p r (m : Z -> shmexport_t P) : upd p r m p = r.
Proof. unfold upd. now rewrite Z.eqb_refl. Qed.

(** The publisher's branch when a region is mapped, as one equation. *)
Lemma shm_update_mapped c g w :
  shmexport c <> NULL ->
  shm_update c g w =
    (c,
     let t := wrap_int (tick w + 1) in
     let p := shmexport c in
     let ops := [StoreBookend2 p t; MemoryBarrier; StoreGpsdata p g;
                 MemoryBarrier; StoreGpsFd p SHM_PSEUDO_FD; MemoryBarrier;
                 StoreBookend1 p t] in
     mk_world (kern w) (errno w) t
              (fold_left (fun m o => apply_op o m) ops (shm w))
              (shm_ops w ++ ops) (syscalls w) (errout w)
              (env_GPSD_SHM_KEY w)).
Proof.
  intros Hp. unfold shm_update.
  destruct (shmexport c =? NULL) eqn:E; [apply Z.eqb_eq in E; contradiction|].
  open_world w. cbn. repeat rewrite <- app_assoc. reflexivity.
Qed.

Lemma shm_update_unmapped c g w :
  shmexport c = NULL -> shm_update c g w = (c, w).
Proof.
  intros Hp. unfold shm_update. rewrite Hp. reflexivity.
Qed.

(** ** The publish protocol *)

(** C1, as the code has it: on a mapped region one publish performs
    exactly: store the trailing bookend with the new tick, fence, copy the
    whole snapshot, fence, store the sentinel into the descriptor field,
    fence, store the leading bookend with the same tick.  The three fences
    separate the four stores; nothing follows the leading-bookend store. *)
Theorem shm_update_operations c g w :
  shmexport c <> NULL ->
  let t := wrap_int (tick w + 1) in
  let p := shmexport c in
  shm_ops (snd (shm_update c g w)) =
    shm_ops w ++
    [StoreBookend2 p t; MemoryBarrier;
     StoreGpsdata p g; MemoryBarrier;
     StoreGpsFd p SHM_PSEUDO_FD; MemoryBarrier;
     StoreBookend1 p t].
Proof.
  intros Hp. rewrite (shm_update_mapped c g w Hp). reflexivity.
Qed.

(** C2: after a publish on a mapped region the record there has both
    bookends equal to the new tick, and its payload is the snapshot passed
    in with the descriptor field replaced by SHM_PSEUDO_FD. *)
Theorem shm_update_record c g w :
  shmexport c <> NULL ->
  let w' := snd (shm_update c g w) in
  let t := wrap_int (tick w + 1) in
  tick w' = t /\
  shm w' (shmexport c) =
    mk_shmexport t (mk_gps_data SHM_PSEUDO_FD (gps_rest g)) t.
Proof.
  intros Hp. rewrite (shm_update_mapped c g w Hp). cbn.
  split; [reflexivity|].
  repeat (rewrite upd_same; cbn). reflexivity.
Qed.

(** ** Release and publish without a region *)

(** C9: on a context whose region is null, release and publish return
    with the context and the whole process state as they were: no kernel
    call, no store, no log line. *)
Theorem null_region_noop c g w :
  shmexport c = NULL ->
  shm_release c w = (c, w) /\ shm_update c g w = (c, w).
Proof.
  intros Hp. split.
  - unfold shm_release. rewrite Hp. reflexivity.
  - now apply shm_update_unmapped.
Qed.

Lemma shm_release_mapped c w :
  shmexport c <> NULL ->
  fst (shm_release c w) = c /\
  syscalls (snd (shm_release c w)) =
    syscalls w ++ [ShmctlRmid (shmid c); Shmdt (shmexport c)].
Proof.
  intros Hp. unfold shm_release.
  destruct (shmexport c =? NULL) eqn:E; [apply Z.eqb_eq in E; contradiction|].
  open_world w. unfold bind, shmctl_rmid, shmdt, leave, enter. cbn [kern].
  destruct (sys_shmctl_rmid k0 (shmid c)) as [k1 [v|e]]; cbn.
  - destruct (v =? -1); cbn.
    + destruct (sys_shmdt k1 (shmexport c)) as [k2 [v2|e2]]; cbn;
        rewrite <- app_assoc; auto.
    + destruct (sys_shmdt k1 (shmexport c)) as [k2 [v2|e2]]; cbn;
        rewrite <- app_assoc; auto.
  - destruct (sys_shmdt k1 (shmexport c)) as [k2 [v2|e2]]; cbn;
      rewrite <- app_assoc; auto.
Qed.

(** C10: a release on a mapped region leaves the context's region pointer
    and handle as they were, so a second release marks the handle for
    destruction and detaches again. *)
Theorem shm_release_keeps_context c w :
  shmexport c <> NULL ->
  let c1 := fst (shm_release c w) in
  let w1 := snd (shm_release c w) in
  let c2 := fst (shm_release c1 w1) in
  let w2 := snd (shm_release c1 w1) in
  shmexport c1 = shmexport c /\ shmid c1 = shmid c /\
  syscalls w1 = syscalls w ++ [ShmctlRmid (shmid c); Shmdt (shmexport c)] /\
  c2 = c /\
  syscalls w2 = syscalls w1 ++ [ShmctlRmid (shmid c); Shmdt (shmexport c)].
Proof.
  intros Hp.
  destruct (shm_release_mapped c w Hp) as [Hc Hs].
  cbn zeta. rewrite Hc.
  destruct (shm_release_mapped c (snd (shm_release c w)) Hp) as [Hc' Hs'].
  repeat split; assumption.
Qed.

(** ** recreate_segment, path by path *)

Ltac tidy :=
  cbn -[Z.eqb Z.geb Z.gtb Z.lor];
  repeat (progress (rewrite ?Z.eqb_refl; change (-1 =? 0) with false);
          cbn -[Z.eqb Z.geb Z.gtb Z.lor]).

Ltac unfold_calls :=
  unfold recreate_segment, bind, shmget, shmctl_stat, shmctl_rmid, shmat,
    shmdt, get_errno, set_errno, GPSD_LOG, ret, leave, enter;
  tidy.

Ltac answer H := rewrite H; tidy.

Ltac valid_id H :=
  match type of H with
  | ?id <> -1 =>
      let E := fresh "E" in
      destruct (Z.eqb_spec (-1) id) as [E|_]; [symmetry in E; contradiction|];
      tidy
  end.

Ltac same_world :=
  cbn; unfold after; cbn; repeat rewrite <- app_assoc; reflexivity.

Section Paths.

Variables (key size mode : Z) (c : gps_context_t).

Let create : syscall := Shmget key size (Z.lor mode IPC_CREAT).
Let probe : syscall := Shmget key 0 0.

Lemma path_created w k1 v :
  sys_shmget (kern w) key size (Z.lor mode IPC_CREAT) = (k1, SysOk v) ->
  v <> -1 ->
  recreate_segment key c size mode w = (v, after [create] k1 (errno w) w).
Proof.
  intros H1 Hv. open_world w. unfold_calls. answer H1.
  destruct (Z.eqb_spec v (-1)); [contradiction|]. same_world.
Qed.

Lemma path_no_segment w k1 e1 k2 e :
  sys_shmget (kern w) key size (Z.lor mode IPC_CREAT) = (k1, SysErr e1) ->
  sys_shmget k1 key 0 0 = (k2, SysErr e) ->
  recreate_segment key c size mode w = (-1, after [create; probe] k2 e1 w).
Proof.
  intros H1 H2. open_world w. unfold_calls. answer H1. answer H2. same_world.
Qed.

Lemma path_stat_fails w k1 e1 k2 id k3 e :
  sys_shmget (kern w) key size (Z.lor mode IPC_CREAT) = (k1, SysErr e1) ->
  sys_shmget k1 key 0 0 = (k2, SysOk id) -> id <> -1 ->
  sys_shmctl_stat k2 id = (k3, StatErr e) ->
  recreate_segment key c size mode w =
    (-1, after [create; probe; ShmctlStat id] k3 e1 w).
Proof.
  intros H1 H2 Hid H3. open_world w. unfold_calls. answer H1. answer H2.
  valid_id Hid. answer H3. same_world.
Qed.

Lemma path_big_enough w k1 e1 k2 id k3 seg :
  sys_shmget (kern w) key size (Z.lor mode IPC_CREAT) = (k1, SysErr e1) ->
  sys_shmget k1 key 0 0 = (k2, SysOk id) -> id <> -1 ->
  sys_shmctl_stat k2 id = (k3, StatOk seg) ->
  size <= shm_segsz seg ->
  recreate_segment key c size mode w =
    (-1, after [create; probe; ShmctlStat id] k3 e1 w).
Proof.
  intros H1 H2 Hid H3 Hsz. open_world w. unfold_calls. answer H1. answer H2.
  valid_id Hid. answer H3.
  destruct (Z.geb_spec (shm_segsz seg) size); [|lia]. same_world.
Qed.

Lemma path_busy w k1 e1 k2 id k3 seg :
  sys_shmget (kern w) key size (Z.lor mode IPC_CREAT) = (k1, SysErr e1) ->
  sys_shmget k1 key 0 0 = (k2, SysOk id) -> id <> -1 ->
  sys_shmctl_stat k2 id = (k3, StatOk seg) ->
  shm_segsz seg < size -> 1 <= shm_nattch seg ->
  recreate_segment key c size mode w =
    (-1, after [create; probe; ShmctlStat id] k3 e1 w).
Proof.
  intros H1 H2 Hid H3 Hsz Hn. open_world w. unfold_calls. answer H1.
  answer H2. valid_id Hid. answer H3.
  destruct (Z.geb_spec (shm_segsz seg) size); [lia|].
  destruct (Z.gtb_spec (shm_nattch seg) 0); [|lia]. same_world.
Qed.

Lemma path_delete_fails w k1 e1 k2 id k3 seg k4 e :
  sys_shmget (kern w) key size (Z.lor mode IPC_CREAT) = (k1, SysErr e1) ->
  sys_shmget k1 key 0 0 = (k2, SysOk id) -> id <> -1 ->
  sys_shmctl_stat k2 id = (k3, StatOk seg) ->
  shm_segsz seg < size -> shm_nattch seg = 0 ->
  sys_shmctl_rmid k3 id = (k4, SysErr e) ->
  recreate_segment key c size mode w =
    (-1, after [create; probe; ShmctlStat id; ShmctlRmid id] k4 e1 w).
Proof.
  intros H1 H2 Hid H3 Hsz Hn H4. open_world w. unfold_calls. answer H1.
  answer H2. valid_id Hid. answer H3.
  destruct (Z.geb_spec (shm_segsz seg) size); [lia|].
  destruct (Z.gtb_spec (shm_nattch seg) 0); [lia|]. tidy.
  answer H4. same_world.
Qed.

Lemma path_retry w k1 e1 k2 id k3 seg k4 v k5 r :
  sys_shmget (kern w) key size (Z.lor mode IPC_CREAT) = (k1, SysErr e1) ->
  sys_shmget k1 key 0 0 = (k2, SysOk id) -> id <> -1 ->
  sys_shmctl_stat k2 id = (k3, StatOk seg) ->
  shm_segsz seg < size -> shm_nattch seg = 0 ->
  sys_shmctl_rmid k3 id = (k4, SysOk v) -> v <> -1 ->
  sys_shmget k4 key size (Z.lor mode IPC_CREAT) = (k5, r) ->
  recreate_segment key c size mode w =
    leave r (after [create; probe; ShmctlStat id; ShmctlRmid id; create]
                   k5 e1 w).
Proof.
  intros H1 H2 Hid H3 Hsz Hn H4 Hv H5. open_world w. unfold_calls.
  answer H1. answer H2. valid_id Hid. answer H3.
  destruct (Z.geb_spec (shm_segsz seg) size); [lia|].
  destruct (Z.gtb_spec (shm_nattch seg) 0); [lia|]. tidy.
  answer H4. valid_id Hv. answer H5.
  destruct r; same_world.
Qed.

End Paths.

(** ** recreate_segment: the claims *)

(** C3, as the code has it: when the first creation fails and the probe
    finds a segment strictly smaller than the desired size with no process
    attached, IPC_RMID is issued on it; if that deletion succeeds, the
    creation at the desired size is retried and whatever the retry yields,
    handle or failure, is the result. *)
Theorem recreate_segment_delete_and_retry
    w key size mode c e1 k1 k2 id k3 seg k4 v k5 r :
  sys_shmget (kern w) key size (Z.lor mode IPC_CREAT) = (k1, SysErr e1) ->
  sys_shmget k1 key 0 0 = (k2, SysOk id) -> id <> -1 ->
  sys_shmctl_stat k2 id = (k3, StatOk seg) ->
  shm_segsz seg < size -> shm_nattch seg = 0 ->
  sys_shmctl_rmid k3 id = (k4, SysOk v) -> v <> -1 ->
  sys_shmget k4 key size (Z.lor mode IPC_CREAT) = (k5, r) ->
  recreate_segment key c size mode w =
    leave r (after [Shmget key size (Z.lor mode IPC_CREAT); Shmget key 0 0;
                    ShmctlStat id; ShmctlRmid id;
                    Shmget key size (Z.lor mode IPC_CREAT)] k5 e1 w).
Proof. intros. eapply path_retry; eassumption. Qed.

(** C4: when the first creation fails and the probe finds a segment
    strictly smaller than the desired size with one or more processes
    attached, the call returns -1 having issued the first creation, the
    probe and IPC_STAT and nothing else: no IPC_RMID, no second creation.
    On a platform whose probes are read-only the kernel's state, and with
    it the segment, is what it was before the call. *)
Theorem recreate_segment_busy w key size mode c e1 k1 k2 id k3 seg :
  sys_shmget (kern w) key size (Z.lor mode IPC_CREAT) = (k1, SysErr e1) ->
  sys_shmget k1 key 0 0 = (k2, SysOk id) -> id <> -1 ->
  sys_shmctl_stat k2 id = (k3, StatOk seg) ->
  shm_segsz seg < size -> 1 <= shm_nattch seg ->
  recreate_segment key c size mode w =
    (-1, after [Shmget key size (Z.lor mode IPC_CREAT); Shmget key 0 0;
                ShmctlStat id] k3 e1 w) /\
  (probes_read_only -> k3 = kern w).
Proof.
  intros H1 H2 Hid H3 Hsz Hn. split.
  - eapply path_busy; eassumption.
  - intros (Lfail & Lprobe & Lstat).
    apply Lfail in H1. apply Lprobe in H2. apply Lstat in H3. congruence.
Qed.

(** C5: when the first creation fails and the probe finds a segment at
    least as large as the desired size, the call returns -1 having issued
    the first creation, the probe and IPC_STAT and nothing else: the
    segment is neither removed nor created again, and on a platform whose
    probes are read-only the kernel's state is what it was. *)
Theorem recreate_segment_big_enough w key size mode c e1 k1 k2 id k3 seg :
  sys_shmget (kern w) key size (Z.lor mode IPC_CREAT) = (k1, SysErr e1) ->
  sys_shmget k1 key 0 0 = (k2, SysOk id) -> id <> -1 ->
  sys_shmctl_stat k2 id = (k3, StatOk seg) ->
  size <= shm_segsz seg ->
  recreate_segment key c size mode w =
    (-1, after [Shmget key size (Z.lor mode IPC_CREAT); Shmget key 0 0;
                ShmctlStat id] k3 e1 w) /\
  (probes_read_only -> k3 = kern w).
Proof.
  intros H1 H2 Hid H3 Hsz. split.
  - eapply path_big_enough; eassumption.
  - intros (Lfail & Lprobe & Lstat).
    apply Lfail in H1. apply Lprobe in H2. apply Lstat in H3. congruence.
Qed.

(** C6: when the first creation fails with error [e1] and the call gives
    up without retrying (no segment, IPC_STAT fails, the segment is big
    enough, it is busy, or IPC_RMID fails), the call returns -1 and the
    [errno] the caller sees is [e1], not an error number of a later
    call. *)
Theorem recreate_segment_keeps_first_errno w key size mode c e1 k1 :
  sys_shmget (kern w) key size (Z.lor mode IPC_CREAT) = (k1, SysErr e1) ->
  gives_up k1 key size ->
  fst (recreate_segment key c size mode w) = -1 /\
  errno (snd (recreate_segment key c size mode w)) = e1.
Proof.
  intros H1 G. destruct G.
  - erewrite path_no_segment by eassumption. split; reflexivity.
  - erewrite path_stat_fails by eassumption. split; reflexivity.
  - erewrite path_big_enough by eassumption. split; reflexivity.
  - erewrite path_busy by eassumption. split; reflexivity.
  - erewrite path_delete_fails by eassumption. split; reflexivity.
Qed.

(** ** shm_acquire *)

(** C8: when a handle is obtained and [shmat] then returns its failure
    value, shm_acquire reports failure and leaves the context with a null
    region (and the handle field it had). *)
Theorem shm_acquire_attach_fails c w id w1 w2 :
  let shmkey := match env_GPSD_SHM_KEY w with
                | Some s => strtol s
                | None => GPSD_SHM_KEY
                end in
  recreate_segment (wrap_int shmkey) c sizeof_shmexport_t 438 w = (id, w1) ->
  id <> -1 ->
  shmat id 0 0
        (snd (GPSD_LOG LOG_PROG
                (MsgShmgetSucceeded shmkey sizeof_shmexport_t) w1))
    = (-1, w2) ->
  shm_acquire c w =
    ((false, mk_context NULL (shmid c)),
     snd (GPSD_LOG LOG_ERROR (MsgShmatFailed (errno w2)) w2)).
Proof.
  intros shmkey Hseg Hid Hat.
  unfold shm_acquire, bind, getenv_GPSD_SHM_KEY.
  fold shmkey. rewrite Hseg.
  destruct (Z.eqb_spec id (-1)) as [|_]; [contradiction|].
  unfold GPSD_LOG at 1. unfold GPSD_LOG at 1 in Hat. cbn [snd] in Hat.
  rewrite Hat. cbn [shmexport set_shmexport].
  rewrite wrap_int_minus_one, Z.eqb_refl. reflexivity.
Qed.

(** ** Ticks over a run *)

Section Ticks.

Lemma leaves_ret {A} (a : A) : leaves_segment (ret a).
Proof. intros w. repeat split. Qed.

Lemma leaves_bind {A B} (m : M A) (f : A -> M B) :
  leaves_segment m -> (forall a, leaves_segment (f a)) ->
  leaves_segment (bind m f).
Proof.
  intros Hm Hf w. unfold bind.
  destruct (Hm w) as (T & O & S). destruct (m w) as [a w1]. cbn in *.
  destruct (Hf a w1) as (T' & O' & S'). repeat split; congruence.
Qed.

Ltac leaf w :=
  intros w; open_world w;
  unfold shmget, shmctl_stat, shmctl_rmid, shmat, shmdt, leave, enter,
    get_errno, set_errno, getenv_GPSD_SHM_KEY, GPSD_LOG;
  cbn [kern];
  repeat match goal with
         | |- context [let (_, _) := ?x in _] => destruct x
         | |- context [match ?r with SysOk _ => _ | SysErr _ => _ end] =>
             destruct r
         | |- context [match ?r with StatOk _ => _ | StatErr _ => _ end] =>
             destruct r
         end;
  repeat split.

Lemma leaves_shmget key size flg : leaves_segment (shmget key size flg).
Proof. leaf w. Qed.

Lemma leaves_shmctl_stat id seg : leaves_segment (shmctl_stat id seg).
Proof. leaf w. Qed.

Lemma leaves_shmctl_rmid id : leaves_segment (shmctl_rmid id).
Proof. leaf w. Qed.

Lemma leaves_shmat id a f : leaves_segment (shmat id a f).
Proof. leaf w. Qed.

Lemma leaves_shmdt a : leaves_segment (shmdt a).
Proof. leaf w. Qed.

Lemma leaves_get_errno : leaves_segment get_errno.
Proof. leaf w. Qed.

Lemma leaves_set_errno e : leaves_segment (set_errno e).
Proof. leaf w. Qed.

Lemma leaves_getenv : leaves_segment getenv_GPSD_SHM_KEY.
Proof. leaf w. Qed.

Lemma leaves_GPSD_LOG l m : leaves_segment (GPSD_LOG l m).
Proof. leaf w. Qed.

Create HintDb leaves.
#[local] Hint Resolve leaves_ret leaves_shmget leaves_shmctl_stat
  leaves_shmctl_rmid leaves_shmat leaves_shmdt leaves_get_errno
  leaves_set_errno leaves_getenv leaves_GPSD_LOG : leaves.

Ltac leaves :=
  repeat first
    [ solve [auto with leaves]
    | apply leaves_bind; [|intros]
    | match goal with
      | |- leaves_segment (if ?b then _ else _) => destruct b
      | |- leaves_segment (let (_, _) := ?x in _) => destruct x
      end ].

Lemma leaves_recreate_segment key c size mode :
  leaves_segment (recreate_segment key c size mode).
Proof. unfold recreate_segment. leaves. Qed.

Lemma leaves_shm_acquire c : leaves_segment (shm_acquire c).
Proof.
  unfold shm_acquire. pose proof leaves_recreate_segment. leaves.
Qed.

Lemma leaves_shm_release c : leaves_segment (shm_release c).
Proof. unfold shm_release. leaves. Qed.

Lemma leading_ticks_app (a b : list (shm_op P)) :
  leading_ticks (a ++ b) = leading_ticks a ++ leading_ticks b.
Proof.
  induction a as [|o a IH]; [reflexivity|].
  destruct o; cbn; rewrite IH; reflexivity.
Qed.

Lemma trailing_ticks_app (a b : list (shm_op P)) :
  trailing_ticks (a ++ b) = trailing_ticks a ++ trailing_ticks b.
Proof.
  induction a as [|o a IH]; [reflexivity|].
  destruct o; cbn; rewrite IH; reflexivity.
Qed.

Lemma last_cons (x : Z) l t : last (x :: l) t = last l x.
Proof.
  revert x t. induction l as [|y l IH]; intros x t; [reflexivity|].
  change (last (x :: y :: l) t) with (last (y :: l) t).
  now rewrite !IH.
Qed.

Lemma last_app_default (l1 l2 : list Z) t :
  last (l1 ++ l2) t = last l2 (last l1 t).
Proof.
  revert t. induction l1 as [|x l1 IH]; intros t; [reflexivity|].
  rewrite <- app_comm_cons, !last_cons. apply IH.
Qed.

Lemma counts_from_app t l1 l2 :
  counts_from t l1 -> counts_from (last l1 t) l2 -> counts_from t (l1 ++ l2).
Proof.
  revert t. induction l1 as [|x l1 IH]; intros t H1 H2; [exact H2|].
  destruct H1 as [Hx H1]. rewrite last_cons in H2.
  split; [exact Hx|]. now apply IH.
Qed.

Lemma successor_of_wrapped a :
  INT_MIN <= a <= INT_MAX -> successor a (wrap_int (a + 1)).
Proof.
  intros Ha. split; [reflexivity|]. split; [apply wrap_int_succ_neq|].
  destruct (Z.eq_dec a INT_MAX) as [->|Hne].
  - right. split; reflexivity.
  - left. apply wrap_int_small. unfold INT_MIN, INT_MAX in *. lia.
Qed.

Lemma counts_from_adjacent t l :
  counts_from t l ->
  Forall (fun ab => successor (fst ab) (snd ab)) (adjacent l).
Proof.
  revert t. induction l as [|x l IH]; intros t H; [constructor|].
  destruct H as [Hx H]. destruct l as [|y l]; [constructor|].
  unfold adjacent. cbn [tl combine]. constructor.
  - cbn [fst snd]. destruct H as [Hy _]. subst x y.
    apply successor_of_wrapped, wrap_int_range.
  - exact (IH x H).
Qed.

(** One call of the run: what it appends to the segment's operations. *)
Lemma step_ticks a c w :
  exists new,
    shm_ops (snd (step a c w)) = shm_ops w ++ new /\
    trailing_ticks new = leading_ticks new /\
    counts_from (tick w) (leading_ticks new) /\
    tick (snd (step a c w)) = last (leading_ticks new) (tick w) /\
    List.length (leading_ticks new) =
      match a with
      | Publish _ => if shmexport c =? NULL then 0%nat else 1%nat
      | _ => 0%nat
      end.
Proof.
  destruct a as [| |g]; cbn [step].
  - exists []. rewrite app_nil_r.
    assert (L : leaves_segment (bind (shm_acquire c) (fun r => ret (snd r)))).
    { apply leaves_bind; [apply leaves_shm_acquire|intros; apply leaves_ret]. }
    destruct (L w) as (T & O & _). cbn. auto.
  - exists []. rewrite app_nil_r.
    destruct (leaves_shm_release c w) as (T & O & _). cbn. auto.
  - destruct (Z.eqb_spec (shmexport c) NULL) as [E|E].
    + exists []. rewrite app_nil_r, (shm_update_unmapped c g w E). cbn. auto.
    + rewrite (shm_update_mapped c g w E). eexists. cbn [snd shm_ops].
      split; [reflexivity|]. cbn. auto.
Qed.

Lemma run_ticks calls : forall c w,
  exists new,
    shm_ops (snd (run calls c w)) = shm_ops w ++ new /\
    trailing_ticks new = leading_ticks new /\
    counts_from (tick w) (leading_ticks new) /\
    tick (snd (run calls c w)) = last (leading_ticks new) (tick w) /\
    List.length (leading_ticks new) = mapped_publishes calls c w.
Proof.
  induction calls as [|a calls IH]; intros c w.
  - exists []. cbn. rewrite app_nil_r. auto.
  - destruct (step_ticks a c w) as (n1 & O1 & B1 & C1 & T1 & L1).
    cbn [run mapped_publishes]. unfold bind.
    destruct (step a c w) as [c1 w1]. cbn [snd] in *.
    destruct (IH c1 w1) as (n2 & O2 & B2 & C2 & T2 & L2).
    exists (n1 ++ n2).
    rewrite O2, O1, <- app_assoc, leading_ticks_app, trailing_ticks_app.
    split; [reflexivity|]. split; [congruence|].
    split; [apply counts_from_app; [exact C1|rewrite <- T1; exact C2]|].
    split; [rewrite last_app_default, <- T1; exact T2|].
    rewrite length_app, L1, L2. reflexivity.
Qed.

(** C7: over any run of the process, every publish that finds a region
    mapped stores one tick, the same into both bookends, and each such
    tick is the one before it plus one as an [int]: one more until the
    counter is at its largest value, the smallest value then, and never
    the same value twice in a row. *)
Theorem ticks_count_up calls c w :
  exists new,
    shm_ops (snd (run calls c w)) = shm_ops w ++ new /\
    trailing_ticks new = leading_ticks new /\
    List.length (leading_ticks new) = mapped_publishes calls c w /\
    counts_from (tick w) (leading_ticks new) /\
    Forall (fun ab => successor (fst ab) (snd ab))
           (adjacent (leading_ticks new)).
Proof.
  destruct (run_ticks calls c w) as (new & O & B & C & _ & L).
  exists new. repeat split; try assumption.
  exact (counts_from_adjacent _ _ C).
Qed.

End Ticks.

(** ** recreate_segment: every return *)

Section Returns.

#[local] Abbreviation calls_of := (calls_of (K := K) (P := P)).

Lemma leave_eq r k e t m o s l v :
  leave r (mk_world k e t m o s l v : world) =
    (retval r, mk_world k (errno_after r e) t m o s l v).
Proof. destruct r; reflexivity. Qed.

Lemma errno_after_ok r e : retval r <> -1 -> errno_after r e = e.
Proof. destruct r; [reflexivity|]. cbn. congruence. Qed.

Lemma skipn_own_length {A} (l x : list A) :
  skipn (List.length l) (l ++ x) = x.
Proof. induction l; [reflexivity|assumption]. Qed.

Lemma calls_of_after {A} (m : M A) w a new k e :
  m w = (a, after new k e w) -> calls_of m w = new.
Proof.
  intros E. unfold calls_of. rewrite E. cbn. apply skipn_own_length.
Qed.

(** [recreate_segment] follows one of the seven paths, and the path tells
    the whole outcome. *)
Lemma recreate_segment_path w key size mode c :
  exists new r k e,
    recreate_path (kern w) (errno w) key size (Z.lor mode IPC_CREAT)
                  new r k e /\
    recreate_segment key c size mode w = (r, after new k e w).
Proof.
  open_world w. cbn [errno].
  unfold recreate_segment, bind, shmget, shmctl_stat, shmctl_rmid,
    get_errno, set_errno, ret, enter. cbn [kern syscalls with_syscalls with_kern].
  destruct (sys_shmget k0 key size (Z.lor mode IPC_CREAT)) as [k1 r1] eqn:E1.
  rewrite leave_eq.
  destruct (Z.eqb_spec (retval r1) (-1)) as [R1|R1]; cbn [negb].
  2:{ exists [Shmget key size (Z.lor mode IPC_CREAT)], (retval r1), k1, e0.
      split; [now apply went_created|].
      rewrite <- (errno_after_ok r1 e0 R1) at 2. reflexivity. }
  cbn [kern errno syscalls with_syscalls with_kern].
  destruct (sys_shmget k1 key 0 0) as [k2 r2] eqn:E2.
  rewrite leave_eq.
  destruct (Z.eqb_spec (-1) (retval r2)) as [R2|R2].
  { do 4 eexists. split; [eapply went_no_segment; eauto|].
    cbn. unfold after. cbn. now rewrite <- app_assoc. }
  assert (R2' : retval r2 <> -1) by congruence.
  rewrite (errno_after_ok r2 _ R2').
  cbn [kern errno syscalls with_syscalls with_kern].
  destruct (sys_shmctl_stat k2 (retval r2)) as [k3 [seg|e3]] eqn:E3.
  2:{ do 4 eexists. split; [eapply went_stat_fails; eauto|].
      cbn. unfold after. cbn. now rewrite <- !app_assoc. }
  change (-1 =? 0) with false. cbv iota.
  destruct (Z.geb_spec (shm_segsz seg) size) as [G|G].
  { do 4 eexists. split; [eapply went_big_enough; eauto|].
    cbn. unfold after. cbn. now rewrite <- !app_assoc. }
  destruct (Z.gtb_spec (shm_nattch seg) 0) as [N|N].
  { do 4 eexists. split; [eapply went_busy; eauto|].
    cbn. unfold after. cbn. now rewrite <- !app_assoc. }
  cbn [kern errno syscalls with_syscalls with_kern].
  destruct (sys_shmctl_rmid k3 (retval r2)) as [k4 r4] eqn:E4.
  rewrite leave_eq.
  destruct (Z.eqb_spec (-1) (retval r4)) as [R4|R4].
  { do 4 eexists. split; [eapply went_delete_fails; eauto|].
    cbn. unfold after. cbn. now rewrite <- !app_assoc. }
  assert (R4' : retval r4 <> -1) by congruence.
  rewrite (errno_after_ok r4 _ R4').
  cbn [kern errno syscalls with_syscalls with_kern].
  destruct (sys_shmget k4 key size (Z.lor mode IPC_CREAT)) as [k5 r5] eqn:E5.
  rewrite leave_eq.
  do 4 eexists. split; [eapply went_retry; eauto|].
  cbn. unfold after. cbn. now rewrite <- !app_assoc.
Qed.

(** X1: when the first [shmget] succeeds, recreate_segment returns its
    handle after that one kernel call, with [errno] as it was. *)
Theorem recreate_segment_first_try w key size mode c k1 v :
  sys_shmget (kern w) key size (Z.lor mode IPC_CREAT) = (k1, SysOk v) ->
  v <> -1 ->
  recreate_segment key c size mode w =
    (v, after [Shmget key size (Z.lor mode IPC_CREAT)] k1 (errno w) w).
Proof. apply path_created. Qed.

Ltac no_rmid H :=
  cbn in H; repeat (destruct H as [H|H]; try discriminate H); try contradiction.

(** X2: recreate_segment issues IPC_RMID on a segment only after its first
    [shmget] returned -1, [shmget(key, 0, 0)] returned that segment's id,
    and IPC_STAT on it reported a size below the desired one and no
    attachment. *)
Theorem recreate_segment_rmid_guarded w key size mode c id :
  In (ShmctlRmid id) (calls_of (recreate_segment key c size mode) w) ->
  let flg := Z.lor mode IPC_CREAT in
  let k1 := fst (sys_shmget (kern w) key size flg) in
  let k2 := fst (sys_shmget k1 key 0 0) in
  retval (snd (sys_shmget (kern w) key size flg)) = -1 /\
  retval (snd (sys_shmget k1 key 0 0)) = id /\
  exists seg,
    snd (sys_shmctl_stat k2 id) = StatOk seg /\
    shm_segsz seg < size /\ shm_nattch seg <= 0.
Proof.
  destruct (recreate_segment_path w key size mode c)
    as (new & r & k & e & Hp & Heq).
  rewrite (calls_of_after _ _ _ _ _ _ Heq). intros Hin. cbn zeta.
  destruct Hp; no_rmid Hin.
  - injection Hin as <-. rewrite H. cbn [fst snd]. rewrite H1. cbn [fst snd].
    rewrite H3. cbn [snd]. split; [assumption|]. split; [reflexivity|].
    exists seg. repeat split; assumption.
  - injection Hin as <-. rewrite H. cbn [fst snd]. rewrite H1. cbn [fst snd].
    rewrite H3. cbn [snd]. split; [assumption|]. split; [reflexivity|].
    exists seg. repeat split; assumption.
Qed.

(** X3: a handle returned by recreate_segment is always the kernel's
    answer to a [shmget] at the desired size with IPC_CREAT, and that call
    is the last one made: either the only call, or the one after the
    probe, IPC_STAT and IPC_RMID.  The id found by [shmget(key, 0, 0)] is
    never handed out. *)
Theorem recreate_segment_handle_from_create w key size mode c :
  let out := recreate_segment key c size mode w in
  let flg := Z.lor mode IPC_CREAT in
  fst out <> -1 ->
  exists k pre,
    sys_shmget k key size flg = (kern (snd out), SysOk (fst out)) /\
    calls_of (recreate_segment key c size mode) w =
      pre ++ [Shmget key size flg] /\
    (pre = [] \/
     exists id, pre = [Shmget key size flg; Shmget key 0 0;
                       ShmctlStat id; ShmctlRmid id]).
Proof.
  destruct (recreate_segment_path w key size mode c)
    as (new & r & k & e & Hp & Heq).
  cbn zeta. rewrite (calls_of_after _ _ _ _ _ _ Heq), Heq. cbn [fst snd after kern].
  intros Hr. destruct Hp; try congruence.
  - exists (kern w), []. destruct r1 as [v|]; [|cbn in Hr; congruence].
    cbn [retval]. eauto.
  - exists k4, [Shmget key size (Z.lor mode IPC_CREAT); Shmget key 0 0;
                ShmctlStat (retval r2); ShmctlRmid (retval r2)].
    destruct r5 as [v|]; [|cbn in Hr; congruence].
    cbn [retval]. split; [assumption|]. split; [reflexivity|]. eauto.
Qed.

End Returns.

(** ** The entry points, beyond the claims *)

Section Lifecycle.

#[local] Abbreviation calls_of := (calls_of (K := K) (P := P)).

(** The key shm_acquire works with: the environment's, if set. *)
Let shmkey_in (w : world) : Z :=
  match env_GPSD_SHM_KEY w with
  | Some s => strtol s
  | None => GPSD_SHM_KEY
  end.

Lemma shm_acquire_calls c w :
  let seg := recreate_segment (wrap_int (shmkey_in w)) c
                              sizeof_shmexport_t 438 in
  calls_of (shm_acquire c) w =
    calls_of seg w ++
    (if fst (seg w) =? -1 then [] else [Shmat (fst (seg w)) 0 0]).
Proof.
  cbn zeta.
  destruct (recreate_segment_path w (wrap_int (shmkey_in w))
              sizeof_shmexport_t 438 c) as (new & r & k & e & _ & Heq).
  rewrite (calls_of_after _ _ _ _ _ _ Heq), Heq. cbn [fst].
  unfold calls_of, shm_acquire, bind, getenv_GPSD_SHM_KEY.
  fold (shmkey_in w). rewrite Heq.
  open_world w. unfold after. cbn [tick shm shm_ops syscalls errout
                                   env_GPSD_SHM_KEY].
  destruct (r =? -1).
  - cbn. rewrite app_nil_r. apply skipn_own_length.
  - unfold GPSD_LOG at 1. cbn [snd with_errout errout].
    unfold bind, shmat, enter. cbn [kern syscalls with_syscalls with_kern].
    destruct (sys_shmat k r 0 0) as [k' ra]. rewrite leave_eq.
    cbn [shmexport set_shmexport].
    destruct (wrap_int (retval ra) =? -1); cbn;
      rewrite <- app_assoc; apply skipn_own_length.
Qed.

(** X4: the first kernel call of shm_acquire is a [shmget] for the key
    from GPSD_SHM_KEY in the environment if set and the default otherwise,
    converted to [int], for the size of the exported structure, with
    flags 0666 | IPC_CREAT. *)
Theorem shm_acquire_first_call c w :
  exists rest,
    calls_of (shm_acquire c) w =
      Shmget (wrap_int (match env_GPSD_SHM_KEY w with
                        | Some s => strtol s
                        | None => GPSD_SHM_KEY
                        end))
             sizeof_shmexport_t (Z.lor 438 IPC_CREAT) :: rest.
Proof.
  fold (shmkey_in w). rewrite shm_acquire_calls. cbn zeta.
  destruct (recreate_segment_path w (wrap_int (shmkey_in w))
              sizeof_shmexport_t 438 c) as (new & r & k & e & Hp & Heq).
  rewrite (calls_of_after _ _ _ _ _ _ Heq).
  destruct Hp; eexists; cbn [app]; reflexivity.
Qed.

(** X5: when a handle is obtained and [shmat] returns an address other
    than its failure value, shm_acquire reports success, stores the
    address and the handle in the context, and logs both successes. *)
Theorem shm_acquire_success c w id w1 p w2 :
  let shmkey := match env_GPSD_SHM_KEY w with
                | Some s => strtol s
                | None => GPSD_SHM_KEY
                end in
  recreate_segment (wrap_int shmkey) c sizeof_shmexport_t 438 w = (id, w1) ->
  id <> -1 ->
  shmat id 0 0
        (snd (GPSD_LOG LOG_PROG
                (MsgShmgetSucceeded shmkey sizeof_shmexport_t) w1))
    = (p, w2) ->
  wrap_int p <> -1 ->
  shm_acquire c w =
    ((true, mk_context p id),
     snd (GPSD_LOG LOG_PROG (MsgShmatSucceeded id) w2)).
Proof.
  intros shmkey Hseg Hid Hat Hp.
  unfold shm_acquire, bind, getenv_GPSD_SHM_KEY.
  fold shmkey. rewrite Hseg.
  destruct (Z.eqb_spec id (-1)) as [|_]; [contradiction|].
  unfold GPSD_LOG at 1. unfold GPSD_LOG at 1 in Hat. cbn [snd] in Hat.
  rewrite Hat. cbn [shmexport set_shmexport].
  destruct (Z.eqb_spec (wrap_int p) (-1)) as [|_]; [contradiction|].
  reflexivity.
Qed.

(** X6: when recreate_segment fails, shm_acquire reports failure without
    calling [shmat] and without writing to the context: the region field
    keeps whatever it held.  It logs one error, carrying the key as read
    (not converted), the size and the [errno] recreate_segment left. *)
Theorem shm_acquire_segment_failure c w w1 :
  let shmkey := match env_GPSD_SHM_KEY w with
                | Some s => strtol s
                | None => GPSD_SHM_KEY
                end in
  recreate_segment (wrap_int shmkey) c sizeof_shmexport_t 438 w = (-1, w1) ->
  shm_acquire c w =
    ((false, c),
     snd (GPSD_LOG LOG_ERROR
            (MsgShmgetFailed shmkey sizeof_shmexport_t (errno w1)) w1)) /\
  calls_of (shm_acquire c) w =
    calls_of (recreate_segment (wrap_int shmkey) c sizeof_shmexport_t 438) w.
Proof.
  intros shmkey Hseg. split.
  - unfold shm_acquire, bind, getenv_GPSD_SHM_KEY.
    fold shmkey. rewrite Hseg. reflexivity.
  - pose proof (shm_acquire_calls c w) as H. cbn zeta in H.
    fold shmkey in H. unfold shmkey_in in H. fold shmkey in H.
    rewrite Hseg in H. cbn in H. rewrite app_nil_r in H. exact H.
Qed.

(** X7: a failed shm_acquire on a context whose region was null leaves it
    null, so every later publish and release on the resulting context
    does nothing. *)
Theorem shm_acquire_failure_disables c w g w' :
  shmexport c = NULL ->
  fst (fst (shm_acquire c w)) = false ->
  let c' := snd (fst (shm_acquire c w)) in
  shmexport c' = NULL /\
  shm_update c' g w' = (c', w') /\
  shm_release c' w' = (c', w').
Proof.
  intros Hc Hf. cbn zeta.
  assert (Hn : shmexport (snd (fst (shm_acquire c w))) = NULL).
  { revert Hf. unfold shm_acquire, bind, getenv_GPSD_SHM_KEY.
    destruct (recreate_segment _ _ _ _ w) as [r w1].
    destruct (r =? -1); [intros _; exact Hc|].
    unfold GPSD_LOG, get_errno, ret. cbv beta iota.
    match goal with
    | |- context [shmat r 0 0 ?x] => destruct (shmat r 0 0 x) as [p w2]
    end.
    cbn [shmexport set_shmexport].
    destruct (wrap_int p =? -1); cbn; [reflexivity|discriminate]. }
  split; [exact Hn|]. split.
  - now apply shm_update_unmapped.
  - unfold shm_release. rewrite Hn. reflexivity.
Qed.

(** X8: when IPC_RMID is refused, shm_release logs one warning carrying
    the error number and still detaches; what [shmdt] returns is not
    looked at and adds nothing to the log. *)
Theorem shm_release_warns_and_detaches c w k1 e :
  shmexport c <> NULL ->
  sys_shmctl_rmid (kern w) (shmid c) = (k1, SysErr e) ->
  let w' := snd (shm_release c w) in
  errout w' = errout w ++ [(LOG_WARN, MsgRmidFailed e)] /\
  calls_of (shm_release c) w = [ShmctlRmid (shmid c); Shmdt (shmexport c)] /\
  kern w' = fst (sys_shmdt k1 (shmexport c)).
Proof.
  intros Hp Hrm. unfold calls_of, shm_release.
  destruct (shmexport c =? NULL) eqn:E; [apply Z.eqb_eq in E; contradiction|].
  open_world w. unfold bind, shmctl_rmid, shmdt, enter, get_errno, GPSD_LOG.
  cbn [kern]. rewrite Hrm. cbn.
  destruct (sys_shmdt k1 (shmexport c)) as [k2 r2]. rewrite leave_eq. cbn.
  repeat split. rewrite <- app_assoc. apply skipn_own_length.
Qed.

Section Publisher.

Lemma upd_other p q r (m : Z -> shmexport_t P) : q <> p -> upd p r m q = m q.
Proof.
  intros Hq. unfold upd. destruct (Z.eqb_spec q p); [contradiction|reflexivity].
Qed.

Lemma publish_ops_mapped c g w :
  shmexport c <> NULL ->
  publish_ops c g w =
    [StoreBookend2 (shmexport c) (wrap_int (tick w + 1)); MemoryBarrier;
     StoreGpsdata (shmexport c) g; MemoryBarrier;
     StoreGpsFd (shmexport c) SHM_PSEUDO_FD; MemoryBarrier;
     StoreBookend1 (shmexport c) (wrap_int (tick w + 1))].
Proof.
  intros Hp. unfold publish_ops. rewrite (shm_update_mapped c g w Hp).
  cbn [snd shm_ops]. apply skipn_own_length.
Qed.

(** X9: shm_update makes no kernel call, writes no log line, leaves
    [errno] and the context alone, and changes nothing in memory outside
    the record its region pointer designates. *)
Theorem shm_update_frame c g w q :
  q <> shmexport c ->
  let w' := snd (shm_update c g w) in
  shm w' q = shm w q /\
  fst (shm_update c g w) = c /\
  kern w' = kern w /\ errno w' = errno w /\
  syscalls w' = syscalls w /\ errout w' = errout w.
Proof.
  intros Hq. cbn zeta.
  destruct (Z.eq_dec (shmexport c) NULL) as [E|E].
  - rewrite (shm_update_unmapped c g w E). repeat split.
  - rewrite (shm_update_mapped c g w E). cbn.
    repeat split. now rewrite !upd_other by exact Hq.
Qed.

(** X10: take a record whose leading bookend holds the current tick, as it
    does after any publish to it, and stop one publish after any number
    [n] of its seven operations.  Before the first the record is the old
    one; after all seven it is the new one, with equal bookends; anywhere
    in between its two bookends differ. *)
Theorem publish_torn_or_whole c g w n :
  shmexport c <> NULL ->
  bookend1 (shm w (shmexport c)) = tick w ->
  let p := shmexport c in
  let seen := replay (firstn n (publish_ops c g w)) (shm w) p in
  (n = 0%nat /\ seen = shm w p) \/
  ((0 < n < 7)%nat /\ bookend1 seen <> bookend2 seen) \/
  ((7 <= n)%nat /\ seen = shm (snd (shm_update c g w)) p /\
   bookend1 seen = bookend2 seen).
Proof.
  intros Hp Hb. cbn zeta.
  rewrite (publish_ops_mapped c g w Hp), (shm_update_mapped c g w Hp).
  cbn [snd shm].
  pose proof (wrap_int_succ_neq (tick w)) as Hne.
  destruct (shm w (shmexport c)) as [b1 gd b2] eqn:Eold. cbn in Hb. subst b1.
  do 7 (destruct n as [|n];
        [ first [ left; split; [reflexivity|]; cbn; exact Eold
                | right; left; split; [lia|];
                  cbn; rewrite ?upd_same; cbn; rewrite ?Eold; cbn;
                  congruence ] | ]).
  right; right. split; [lia|]. cbn [firstn]. rewrite firstn_nil.
  split; [reflexivity|].
  cbn; rewrite ?upd_same; reflexivity.
Qed.


End Publisher.

End Lifecycle.

End Properties.

(** * The embedding at work on the System V kernel *)

Section Runs.

#[local] Existing Instance SysV.platform.
#[local] Existing Instance SysV.linux_headers.

Let KEY : Z := 1196446532.
Let FLG : Z := 950.   (* 0666 | IPC_CREAT *)
Let ctx0 : gps_context_t := mk_context 0 0.
Let ctx1 : gps_context_t := mk_context 4096 1.
Let fix5 : gps_data_t string := mk_gps_data 5 "fix"%string.
Let fresh : world SysV.kernel string := SysV.boot SysV.empty_kernel None.

(** The kernel model honours what [probes_read_only] asks. *)
Lemma sysv_probes_read_only : probes_read_only (K := SysV.kernel).
Proof.
  repeat split.
  - intros k key size flg k' e. cbn. unfold SysV.k_shmget.
    destruct (find _ _).
    + destruct (_ >? _); [congruence|]. destruct (SysV.denied _ _); congruence.
    + destruct (_ =? 0); [congruence|]. destruct (_ <? 1); congruence.
  - intros k key k' r. cbn. unfold SysV.k_shmget.
    destruct (find _ _).
    + destruct (_ >? _); [congruence|]. destruct (SysV.denied _ _); congruence.
    + cbn. congruence.
  - intros k id k' r. cbn. unfold SysV.k_stat.
    destruct (find _ _); [|congruence].
    destruct (_ =? 0); congruence.
Qed.

(** C1, as stated, fails: a publish does not end with a fence, and its
    second fence stands between the copy and the descriptor store. *)
Lemma shm_update_operations_counterexample :
  shmexport ctx1 <> NULL /\
  shm_ops (snd (shm_update ctx1 fix5 fresh)) <>
    [StoreBookend2 4096 1; MemoryBarrier;
     StoreGpsdata 4096 fix5; StoreGpsFd 4096 SHM_PSEUDO_FD; MemoryBarrier;
     StoreBookend1 4096 1; MemoryBarrier].
Proof. split; [discriminate|]. vm_compute. discriminate. Qed.

Lemma shm_update_operations_witness :
  shm_ops (snd (shm_update ctx1 fix5 fresh)) =
    [StoreBookend2 4096 1; MemoryBarrier;
     StoreGpsdata 4096 fix5; MemoryBarrier;
     StoreGpsFd 4096 (-1); MemoryBarrier;
     StoreBookend1 4096 1].
Proof.
  exact (shm_update_operations ctx1 fix5 fresh ltac:(discriminate)).
Defined.

Lemma shm_update_record_witness :
  tick (snd (shm_update ctx1 fix5 fresh)) = 1 /\
  shm (snd (shm_update ctx1 fix5 fresh)) 4096 =
    mk_shmexport 1 (mk_gps_data (-1) "fix"%string) 1.
Proof.
  exact (shm_update_record ctx1 fix5 fresh ltac:(discriminate)).
Defined.

Lemma null_region_noop_witness :
  shm_release ctx0 fresh = (ctx0, fresh) /\
  shm_update ctx0 fix5 fresh = (ctx0, fresh).
Proof.
  exact (null_region_noop ctx0 fix5 fresh eq_refl).
Defined.

Lemma shm_release_keeps_context_witness :
  let c1 := fst (shm_release ctx1 fresh) in
  let w1 := snd (shm_release ctx1 fresh) in
  shmexport c1 = 4096 /\ shmid c1 = 1 /\
  syscalls w1 = [ShmctlRmid 1; Shmdt 4096] /\
  fst (shm_release c1 w1) = ctx1 /\
  syscalls (snd (shm_release c1 w1)) =
    [ShmctlRmid 1; Shmdt 4096] ++ [ShmctlRmid 1; Shmdt 4096].
Proof.
  pose proof (shm_release_keeps_context ctx1 fresh ltac:(discriminate)) as H.
  cbn zeta in H. destruct H as (H1 & H2 & H3 & H4 & H5).
  cbn zeta. rewrite H5, H3. repeat split; assumption.
Defined.

(** C3, as stated, fails: an undersized, unattached segment that the
    caller may not remove.  IPC_RMID is refused, the segment stays and the
    creation is not retried. *)
Lemma recreate_segment_delete_and_retry_counterexample :
  let w := SysV.boot (SysV.kernel_with 512 0 6 false) None in
  let out := recreate_segment KEY ctx0 1024 438 w in
  sys_shmget (kern w) KEY 1024 (Z.lor 438 IPC_CREAT)
    = (kern w, SysErr SysV.EINVAL) /\
  sys_shmget (kern w) KEY 0 0 = (kern w, SysOk 7) /\
  sys_shmctl_stat (kern w) 7 = (kern w, StatOk (mk_shmid_ds 512 0)) /\
  fst out = -1 /\
  errno (snd out) = SysV.EINVAL /\
  kern (snd out) = kern w /\
  syscalls (snd out) =
    [Shmget KEY 1024 FLG; Shmget KEY 0 0; ShmctlStat 7; ShmctlRmid 7].
Proof. vm_compute. repeat split. Qed.

Lemma recreate_segment_delete_and_retry_witness :
  let w := SysV.boot (SysV.kernel_with 512 0 6 true) None in
  recreate_segment KEY ctx0 1024 438 w =
    (8, after [Shmget KEY 1024 FLG; Shmget KEY 0 0; ShmctlStat 7;
               ShmctlRmid 7; Shmget KEY 1024 FLG]
              (SysV.mk_kernel
                 [SysV.mk_segment KEY 8 1024 0 6 true false] 9
                 [4096; 8192] [])
              SysV.EINVAL w).
Proof.
  intros w.
  exact (recreate_segment_delete_and_retry
           w KEY 1024 438 ctx0 SysV.EINVAL (kern w) (kern w) 7 (kern w)
           (mk_shmid_ds 512 0) (SysV.mk_kernel [] 8 [4096; 8192] []) 0
           (SysV.mk_kernel [SysV.mk_segment KEY 8 1024 0 6 true false] 9
                           [4096; 8192] [])
           (SysOk 8)
           eq_refl eq_refl ltac:(discriminate) eq_refl eq_refl eq_refl
           eq_refl ltac:(discriminate) eq_refl).
Defined.

Lemma recreate_segment_busy_witness :
  let w := SysV.boot (SysV.kernel_with 512 2 6 true) None in
  let out := recreate_segment KEY ctx0 1024 438 w in
  probes_read_only (K := SysV.kernel) /\
  fst out = -1 /\
  syscalls (snd out) = [Shmget KEY 1024 FLG; Shmget KEY 0 0; ShmctlStat 7] /\
  kern (snd out) = kern w.
Proof.
  intros w out.
  destruct (recreate_segment_busy
              (PF := SysV.platform) (HD := SysV.linux_headers)
              w KEY 1024 438 ctx0 SysV.EINVAL (kern w) (kern w) 7 (kern w)
              (mk_shmid_ds 512 2)
              ltac:(reflexivity) ltac:(reflexivity) ltac:(discriminate)
              ltac:(reflexivity) ltac:(reflexivity)
              ltac:(discriminate)) as [E F].
  split; [exact sysv_probes_read_only|].
  unfold out. rewrite E. split; [reflexivity|]. split; [reflexivity|].
  exact (F sysv_probes_read_only).
Defined.

Lemma recreate_segment_big_enough_witness :
  let w := SysV.boot (SysV.kernel_with 2048 0 4 true) None in
  let out := recreate_segment KEY ctx0 1024 438 w in
  probes_read_only (K := SysV.kernel) /\
  fst out = -1 /\
  syscalls (snd out) = [Shmget KEY 1024 FLG; Shmget KEY 0 0; ShmctlStat 7] /\
  kern (snd out) = kern w.
Proof.
  intros w out.
  destruct (recreate_segment_big_enough
              (PF := SysV.platform) (HD := SysV.linux_headers)
              w KEY 1024 438 ctx0 SysV.EACCES (kern w) (kern w) 7 (kern w)
              (mk_shmid_ds 2048 0)
              ltac:(reflexivity) ltac:(reflexivity) ltac:(discriminate)
              ltac:(reflexivity) ltac:(discriminate)) as [E F].
  split; [exact sysv_probes_read_only|].
  unfold out. rewrite E. split; [reflexivity|]. split; [reflexivity|].
  exact (F sysv_probes_read_only).
Defined.

(** The probe's own failure (EACCES from IPC_STAT on an unreadable
    segment) is not what the caller sees. *)
Lemma recreate_segment_keeps_first_errno_witness :
  let w := SysV.boot (SysV.kernel_with 512 0 0 true) None in
  sys_shmctl_stat (kern w) 7 = (kern w, StatErr SysV.EACCES) /\
  fst (recreate_segment KEY ctx0 1024 438 w) = -1 /\
  errno (snd (recreate_segment KEY ctx0 1024 438 w)) = SysV.EINVAL.
Proof.
  intros w. split; [reflexivity|].
  exact (recreate_segment_keeps_first_errno
           w KEY 1024 438 ctx0 SysV.EINVAL (kern w) eq_refl
           (stat_fails (kern w) KEY 1024 (kern w) 7 (kern w) SysV.EACCES
                       eq_refl ltac:(discriminate) eq_refl)).
Defined.

Lemma shm_acquire_attach_fails_witness :
  let w := SysV.boot SysV.kernel_full None in
  fst (shm_acquire ctx0 w) = (false, mk_context NULL 0) /\
  errno (snd (shm_acquire ctx0 w)) = SysV.ENOMEM.
Proof.
  intros w.
  pose proof (shm_acquire_attach_fails ctx0 w 1
                (snd (recreate_segment KEY ctx0 1024 438 w))
                (snd (shmat 1 0 0
                        (snd (GPSD_LOG LOG_PROG
                                (MsgShmgetSucceeded KEY 1024)
                                (snd (recreate_segment KEY ctx0 1024 438 w))))))
                eq_refl ltac:(discriminate) eq_refl) as H.
  rewrite H. split; reflexivity.
Defined.

(** *** Further runs *)

Let undersized : world SysV.kernel string :=
  SysV.boot (SysV.kernel_with 512 0 6 true) None.
Let busy_seg : world SysV.kernel string :=
  SysV.boot (SysV.kernel_with 512 2 6 true) None.
Let foreign : world SysV.kernel string :=
  SysV.boot (SysV.kernel_with 512 0 6 false) None.

Lemma recreate_segment_first_try_witness :
  fst (recreate_segment KEY ctx0 1024 438 fresh) = 1 /\
  syscalls (snd (recreate_segment KEY ctx0 1024 438 fresh)) =
    [Shmget KEY 1024 FLG] /\
  errno (snd (recreate_segment KEY ctx0 1024 438 fresh)) = 0.
Proof.
  rewrite (recreate_segment_first_try
             (PF := SysV.platform) (HD := SysV.linux_headers)
             fresh KEY 1024 438 ctx0
             (SysV.mk_kernel [SysV.mk_segment KEY 1 1024 0 6 true false] 2
                             [4096; 8192] [])
             1 eq_refl ltac:(discriminate)).
  repeat split.
Defined.

Lemma recreate_segment_rmid_guarded_witness :
  In (ShmctlRmid 7) (calls_of (recreate_segment KEY ctx0 1024 438) undersized)
  /\
  exists seg,
    snd (sys_shmctl_stat (kern undersized) 7) = StatOk seg /\
    shm_segsz seg < 1024 /\ shm_nattch seg <= 0.
Proof.
  assert (H : In (ShmctlRmid 7)
                 (calls_of (recreate_segment KEY ctx0 1024 438) undersized)).
  { right; right; right; left; reflexivity. }
  split; [exact H|].
  exact (proj2 (proj2 (recreate_segment_rmid_guarded
                         (PF := SysV.platform) (HD := SysV.linux_headers)
                         undersized KEY 1024 438 ctx0 7 H))).
Defined.

Lemma recreate_segment_handle_from_create_witness :
  fst (recreate_segment KEY ctx0 1024 438 undersized) = 8 /\
  exists k pre,
    sys_shmget k KEY 1024 FLG =
      (kern (snd (recreate_segment KEY ctx0 1024 438 undersized)), SysOk 8) /\
    calls_of (recreate_segment KEY ctx0 1024 438) undersized =
      pre ++ [Shmget KEY 1024 FLG] /\
    (pre = [] \/
     exists id, pre = [Shmget KEY 1024 FLG; Shmget KEY 0 0;
                       ShmctlStat id; ShmctlRmid id]).
Proof.
  split; [reflexivity|].
  exact (recreate_segment_handle_from_create
           (PF := SysV.platform) (HD := SysV.linux_headers)
           undersized KEY 1024 438 ctx0 ltac:(discriminate)).
Defined.

Lemma shm_acquire_success_witness :
  fst (shm_acquire ctx0 fresh) = (true, mk_context 4096 1) /\
  errout (snd (shm_acquire ctx0 fresh)) =
    [(LOG_PROG, MsgShmgetSucceeded KEY 1024); (LOG_PROG, MsgShmatSucceeded 1)].
Proof.
  pose (w1 := snd (recreate_segment KEY ctx0 1024 438 fresh)).
  pose (w2 := snd (shmat 1 0 0
                     (snd (GPSD_LOG LOG_PROG (MsgShmgetSucceeded KEY 1024)
                                    w1)))).
  rewrite (shm_acquire_success
             (PF := SysV.platform) (HD := SysV.linux_headers)
             ctx0 fresh 1 w1 4096 w2
             eq_refl ltac:(discriminate) eq_refl ltac:(discriminate)).
  split; reflexivity.
Defined.

Lemma shm_acquire_segment_failure_witness :
  fst (shm_acquire ctx1 busy_seg) = (false, ctx1) /\
  errout (snd (shm_acquire ctx1 busy_seg)) =
    [(LOG_ERROR, MsgShmgetFailed KEY 1024 SysV.EINVAL)] /\
  calls_of (shm_acquire ctx1) busy_seg =
    [Shmget KEY 1024 FLG; Shmget KEY 0 0; ShmctlStat 7].
Proof.
  pose (w1 := snd (recreate_segment KEY ctx1 1024 438 busy_seg)).
  destruct (shm_acquire_segment_failure
              (PF := SysV.platform) (HD := SysV.linux_headers)
              ctx1 busy_seg w1 eq_refl) as [E C].
  rewrite C, E. repeat split.
Defined.

Lemma shm_acquire_failure_disables_witness :
  let c' := snd (fst (shm_acquire ctx0 busy_seg)) in
  shmexport c' = NULL /\
  shm_update c' fix5 fresh = (c', fresh) /\
  shm_release c' fresh = (c', fresh).
Proof.
  exact (shm_acquire_failure_disables
           (PF := SysV.platform) (HD := SysV.linux_headers)
           ctx0 busy_seg fix5 fresh eq_refl eq_refl).
Defined.

Lemma shm_release_warns_and_detaches_witness :
  let c := mk_context 4096 7 in
  errout (snd (shm_release c foreign)) =
    [(LOG_WARN, MsgRmidFailed SysV.EPERM)] /\
  calls_of (shm_release c) foreign = [ShmctlRmid 7; Shmdt 4096].
Proof.
  intros c.
  destruct (shm_release_warns_and_detaches
              (PF := SysV.platform)
              c foreign (kern foreign) SysV.EPERM
              ltac:(discriminate) eq_refl) as (E & C & _).
  split; [exact E|exact C].
Defined.

Lemma shm_update_frame_witness :
  shm (snd (shm_update ctx1 fix5 fresh)) 8192 = shm fresh 8192 /\
  syscalls (snd (shm_update ctx1 fix5 fresh)) = [] /\
  errout (snd (shm_update ctx1 fix5 fresh)) = [].
Proof.
  destruct (shm_update_frame
              (K := SysV.kernel) (HD := SysV.linux_headers)
              ctx1 fix5 fresh 8192 ltac:(discriminate))
    as (S & _ & _ & _ & C & L).
  repeat split; assumption.
Defined.

(** Three operations into the first publish: the new tick is in the
    trailing bookend and the snapshot is copied, unpatched; the leading
    bookend still holds the old tick. *)
Lemma publish_torn_or_whole_witness :
  let seen := replay (firstn 3 (publish_ops ctx1 fix5 fresh)) (shm fresh)
                     4096 in
  seen = mk_shmexport 0 fix5 1 /\ bookend1 seen <> bookend2 seen.
Proof.
  intros seen. split; [reflexivity|].
  destruct (publish_torn_or_whole
              (K := SysV.kernel) (HD := SysV.linux_headers)
              ctx1 fix5 fresh 3 ltac:(discriminate) eq_refl)
    as [[N _]|[[_ D]|[N _]]].
  - discriminate N.
  - exact D.
  - exfalso. revert N. apply Nat.lt_nge. repeat constructor.
Defined.


End Runs.
